(** * The dummy OAuth validator module

    A shallow embedding of [testsetup/oauth_validator_module/dummy_validator.c],
    the loadable OAuth validator that the test setup installs into the
    database server, together with the properties its description states.

    The module is C code running inside a host process, so the embedding is
    a state-and-fault monad over a small block-structured memory:
    - a pointer is [NULL], the address of a global of the module, or a
      block and an offset into it;
    - a block holds a [char] array, a [ValidatorModuleState] or a
      [ValidatorModuleResult];
    - a computation either returns a value and a memory, or faults (an
      access through a pointer that does not point to an object of the
      expected type: a null or dangling pointer, a read past the end of
      an array, a write into the read-only data of the module).
    The server log is part of the state, so what [elog] emits can be
    observed. *)

From Stdlib Require Import ZArith String Ascii.
From stdpp Require Import base option gmap list strings.

Open Scope string_scope.

(** ** Pointers *)

(** The objects with static storage that the module defines: line 17. *)
Inductive global := G_callbacks.

Inductive ptr :=
  | NULL
  | Global (g : global)
  | Ptr (b : N) (ofs : nat).

#[global] Instance global_eq_dec : EqDecision global.
Proof. solve_decision. Defined.

#[global] Instance ptr_eq_dec : EqDecision ptr.
Proof. solve_decision. Defined.

(** ** C strings

    A [char] array is a [string] in which the terminator may occur; the C
    string that starts at an array is what precedes the first terminator. *)

Definition NUL : ascii := "000"%char.

(** The C string at the start of [bs]; [None] when [bs] ends before a
    terminator is met (the read runs past the end of the array). *)
Fixpoint read_cstring (bs : string) : option string :=
  match bs with
  | EmptyString => None
  | String c bs' =>
      if Ascii.eqb c NUL then Some EmptyString
      else String c <$> read_cstring bs'
  end.

(** The array from offset [n] on (pointer arithmetic inside one array). *)
Fixpoint skip (n : nat) (bs : string) : string :=
  match n, bs with
  | O, _ => bs
  | S n', String _ bs' => skip n' bs'
  | S _, EmptyString => EmptyString
  end.

(** The array a C string occupies: its characters and the terminator. *)
Definition with_terminator (s : string) : string := s +:+ String NUL EmptyString.

(** [strlen] of a C string that was read. *)
Definition strlen (s : string) : nat := String.length s.

(** The first [n] characters of an array (what [memcpy] takes from it). *)
Fixpoint first_chars (n : nat) (bs : string) : string :=
  match n, bs with
  | S n', String c bs' => String c (first_chars n' bs')
  | _, _ => EmptyString
  end.

(** The [printf] directives that the module's one format string uses: [%s]
    takes the next argument, [%%] is a percent sign, any other character is
    copied. [None] for any other directive and for a missing argument. *)
Fixpoint format (fmt : string) (args : list string) : option string :=
  match fmt with
  | EmptyString => Some EmptyString
  | String c rest =>
      if Ascii.eqb c "%" then
        match rest with
        | EmptyString => None
        | String d rest' =>
            if Ascii.eqb d "s" then
              match args with
              | [] => None
              | a :: args' => String.append a <$> format rest' args'
              end
            else if Ascii.eqb d "%" then String "%" <$> format rest' args
            else None
        end
      else String c <$> format rest args
  end.

(** [sub] occurs in [s]. *)
Definition contains (s sub : string) : Prop :=
  ∃ pre post, s = pre +:+ sub +:+ post.

(** ** The server log *)

(** The levels of [elog] that return to the caller, in the order of
    [elog.h]. [ERROR] and above do not return; the module does not use
    them. *)
Inductive elevel := DEBUG | LOG | INFO | NOTICE | WARNING.

#[global] Instance elevel_eq_dec : EqDecision elevel.
Proof. solve_decision. Defined.

Record log_record := { level : elevel; message : string }.

Section Host.

(** What the host's header [libpq/oauth.h] declares and this repository
    does not contain is a parameter of the development: the magic number,
    the fields of [ValidatorModuleState], and the fields of
    [ValidatorModuleResult] other than the two the module assigns. *)
Variable PG_OAUTH_VALIDATOR_MAGIC : Z.
Variable ValidatorModuleState : Type.
Variable ResultRest : Type.

(** Modelled from the spec: the host's result structure, of which the
    source names the fields [authorized] and [authn_id] ("set
    [authorized = true], and set [authn_id] to a copy of the input
    token"); [result_rest] stands for every other field. *)
Record ValidatorModuleResult := {
  authorized : bool;
  authn_id : ptr;
  result_rest : ResultRest;
}.

(** ** Memory *)

Inductive object :=
  | Chars (bs : string)
  | StateObj (s : ValidatorModuleState)
  | ResultObj (r : ValidatorModuleResult).

Record mem := {
  heap : gmap N object;
  log : list log_record;
}.

Inductive outcome (A : Type) :=
  | Returned (a : A) (m : mem)
  | Fault (m : mem).
Arguments Returned {A} a m.
Arguments Fault {A} m.

(** A computation of the module or of the host API. *)
Definition M (A : Type) : Type := mem → outcome A.

Definition ret {A} (a : A) : M A := λ m, Returned a m.

Definition bind {A B} (c : M A) (k : A → M B) : M B := λ m,
  match c m with
  | Returned a m' => k a m'
  | Fault m' => Fault m'
  end.

Notation "'let*' x := c 'in' k" := (bind c (λ x, k))
  (at level 10, x name, c at level 100, k at level 200).
Notation "c ;; k" := (bind c (λ _, k))
  (at level 100, k at level 200, right associativity).

(** The state after a computation, whether it returned or faulted. *)
Definition final {A} (o : outcome A) : mem :=
  match o with Returned _ m => m | Fault m => m end.

(** ** Reading memory *)

(** The C string that [p] points to. *)
Definition cstring_at (m : mem) (p : ptr) : option string :=
  match p with
  | Ptr b ofs =>
      match heap m !! b with
      | Some (Chars bs) => read_cstring (skip ofs bs)
      | _ => None
      end
  | _ => None
  end.

(** The result structure that [p] points to. *)
Definition result_at (m : mem) (p : ptr) : option ValidatorModuleResult :=
  match p with
  | Ptr b O =>
      match heap m !! b with
      | Some (ResultObj r) => Some r
      | _ => None
      end
  | _ => None
  end.

Definition load_cstring (p : ptr) : M string := λ m,
  match cstring_at m p with
  | Some s => Returned s m
  | None => Fault m
  end.

(** The string that a [%s] directive prints for the argument [p]: the
    host's formatter prints a null pointer as [(null)]; any other pointer
    is read as a C string. *)
Definition printed_at (m : mem) (p : ptr) : option string :=
  match p with
  | NULL => Some "(null)"
  | _ => cstring_at m p
  end.

Definition load_arg (p : ptr) : M string := λ m,
  match printed_at m p with
  | Some s => Returned s m
  | None => Fault m
  end.

Fixpoint load_args (ps : list ptr) : M (list string) :=
  match ps with
  | [] => ret []
  | p :: ps' =>
      let* s := load_arg p in
      let* ss := load_args ps' in
      ret (s :: ss)
  end.

(** ** Writing memory *)

(** An allocation: a block that is not in use, holding [o]. It always
    succeeds: the host reports exhausted memory by a non-local exit, which
    is not modelled. *)
Definition alloc (o : object) : M ptr := λ m,
  let b := fresh (dom (heap m)) in
  Returned (Ptr b O) {| heap := <[b := o]> (heap m); log := log m |}.

(** An assignment to one field of the result structure that [p] points to,
    [upd] being the assignment on the structure. *)
Definition store_result (p : ptr)
    (upd : ValidatorModuleResult → ValidatorModuleResult) : M unit := λ m,
  match p with
  | Ptr b O =>
      match heap m !! b with
      | Some (ResultObj r) =>
          Returned tt {| heap := <[b := ResultObj (upd r)]> (heap m); log := log m |}
      | _ => Fault m
      end
  | _ => Fault m
  end.

(** [result->authn_id = v] *)
Definition set_authn_id (v : ptr) (r : ValidatorModuleResult) : ValidatorModuleResult :=
  {| authorized := authorized r; authn_id := v; result_rest := result_rest r |}.

(** [result->authorized = v] *)
Definition set_authorized (v : bool) (r : ValidatorModuleResult) : ValidatorModuleResult :=
  {| authorized := v; authn_id := authn_id r; result_rest := result_rest r |}.

(** ** The host API that [validate] calls *)

(** Modelled from the spec: [elog] of the host ("logging the token and role
    for test observability"). It formats the message, every [%s] argument
    printed as [printed_at] gives it, and appends one record to the server
    log. An argument that is neither null nor a C string is a fault. *)
Definition elog (lvl : elevel) (fmt : string) (args : list ptr) : M unit :=
  let* ss := load_args args in
  λ m,
    match format fmt ss with
    | Some msg =>
        Returned tt {| heap := heap m; log := log m ++ [{| level := lvl; message := msg |}] |}
    | None => Fault m
    end.

(** Modelled from the spec: [pstrdup] of the host ("a single string
    duplication whose ownership is immediately transferred to the caller"):
    the string at [in] is read up to its terminator, and a new allocation
    that holds its characters and the terminator is returned. These are
    the first [strlen (in) + 1] characters at [in]
    ([read_cstring_first_chars]). *)
Definition pstrdup (p : ptr) : M ptr :=
  let* s := load_cstring p in
  alloc (Chars (with_terminator s)).

(** ** The module: dummy_validator.c *)

(** Lines 7 to 15. *)
Definition validate (state token role result : ptr) : M bool :=
  elog LOG "accept token '%s' for role '%s'" [token; role] ;;
  let* authn_id := pstrdup token in
  store_result result (set_authn_id authn_id) ;;
  store_result result (set_authorized true) ;;
  ret true.

(** Modelled from the spec: the callback table of the host ("the callback
    struct layout, the magic-number compatibility check, the exact
    signatures of validate/startup/shutdown"). A null function pointer is
    [None]. *)
Record OAuthValidatorCallbacks := {
  magic : Z;
  startup_cb : option (ptr → M unit);
  shutdown_cb : option (ptr → M unit);
  validate_cb : option (ptr → ptr → ptr → ptr → M bool);
}.

(** Lines 17 to 22. *)
Definition callbacks : OAuthValidatorCallbacks := {|
  magic := PG_OAUTH_VALIDATOR_MAGIC;
  startup_cb := None;
  shutdown_cb := None;
  validate_cb := Some validate;
|}.

(** Lines 24 to 26. *)
Definition _PG_oauth_validator_module_init : M ptr :=
  ret (Global G_callbacks).

(** The read-only data of the loaded module: the table that a pointer
    designates. No store reaches it ([store_result] faults on a [Global]
    pointer). *)
Definition callbacks_at (p : ptr) : option OAuthValidatorCallbacks :=
  match p with
  | Global G_callbacks => Some callbacks
  | _ => None
  end.

(** ** The host's side of the interface *)

(** Modelled from the spec: "the magic-number compatibility check" that
    the host applies to the table it obtained from the init entry point. *)
Definition magic_check (cb : OAuthValidatorCallbacks) : bool :=
  Z.eqb (magic cb) PG_OAUTH_VALIDATOR_MAGIC.

(** A hook is implemented when its entry of the table is not null. *)
Definition implemented {A} (hook : option A) : bool :=
  match hook with Some _ => true | None => false end.

Definition implements_all_hooks (cb : OAuthValidatorCallbacks) : bool :=
  implemented (startup_cb cb) && implemented (shutdown_cb cb)
  && implemented (validate_cb cb).

(** Modelled from the spec: what the host does with a loaded module
    ("call init to obtain the callback table, ..., call validate per
    request"), as the calls into the module's code. *)
Inductive host_call :=
  | call_init
  | call_validate (state token role result : ptr).

Definition run_call (c : host_call) : M unit :=
  match c with
  | call_init => _PG_oauth_validator_module_init ;; ret tt
  | call_validate state token role result =>
      validate state token role result ;; ret tt
  end.

(** A faulting call ends the process: the calls after it do not run. *)
Fixpoint run_calls (cs : list host_call) : M unit :=
  match cs with
  | [] => ret tt
  | c :: cs' => run_call c ;; run_calls cs'
  end.

(** ** Vocabulary of the statements *)

(** The record that line 10 writes for a token [tok] and a role [rol]. *)
Definition accept_record (tok rol : string) : log_record :=
  {| level := LOG;
     message := "accept token '" +:+ tok +:+ "' for role '" +:+ rol +:+ "'" |}.

(** The memory in which [validate] returns when called in [m] with a token
    [tok], a role [rol] and a result structure [r] in block [rb]. *)
Definition validate_post (m : mem) (tok rol : string) (rb : N)
    (r : ValidatorModuleResult) : mem :=
  let b := fresh (dom (heap m)) in
  {| heap :=
       <[rb := ResultObj {| authorized := true; authn_id := Ptr b O;
                            result_rest := result_rest r |}]>
         (<[b := Chars (with_terminator tok)]> (heap m));
     log := log m ++ [accept_record tok rol] |}.

(** The memory in which [validate] stands after line 10. *)
Definition validate_logged (m : mem) (tok rol : string) : mem :=
  {| heap := heap m; log := log m ++ [accept_record tok rol] |}.

(** The memory in which [validate] stands after lines 10 and 11, before
    the stores to the result structure. *)
Definition validate_before_store (m : mem) (tok rol : string) : mem :=
  {| heap := <[fresh (dom (heap m)) := Chars (with_terminator tok)]> (heap m);
     log := log m ++ [accept_record tok rol] |}.

Definition returns {A} (o : outcome A) : bool :=
  match o with Returned _ _ => true | Fault _ => false end.

(** The host's state structure in block [b] overwritten with [s]. *)
Definition poke_state (b : N) (s : ValidatorModuleState) (m : mem) : mem :=
  {| heap := <[b := StateObj s]> (heap m); log := log m |}.

Definition outcome_map {A} (f : mem → mem) (o : outcome A) : outcome A :=
  match o with
  | Returned a m => Returned a (f m)
  | Fault m => Fault (f m)
  end.

End Host.

Arguments Returned {_ _ _} _ _.
Arguments Fault {_ _ _} _.
Arguments Chars {_ _} _.
Arguments StateObj {_ _} _.
Arguments ResultObj {_ _} _.
Arguments heap {_ _} _.
Arguments log {_ _} _.
Arguments authorized {_} _.
Arguments authn_id {_} _.
Arguments result_rest {_} _.
Arguments final {_ _ _} _.
Arguments returns {_ _ _} _.
Arguments cstring_at {_ _} _ _.
Arguments result_at {_ _} _ _.
Arguments load_cstring {_ _} _ _.
Arguments printed_at {_ _} _ _.
Arguments load_arg {_ _} _ _.
Arguments load_args {_ _} _ _.
Arguments alloc {_ _} _ _.
Arguments store_result {_ _} _ _ _.
Arguments set_authn_id {_} _ _.
Arguments set_authorized {_} _ _.
Arguments elog {_ _} _ _ _ _.
Arguments pstrdup {_ _} _ _.
Arguments validate {_ _} _ _ _ _ _.
Arguments magic {_ _} _.
Arguments startup_cb {_ _} _.
Arguments shutdown_cb {_ _} _.
Arguments validate_cb {_ _} _.
Arguments _PG_oauth_validator_module_init {_ _} _.
Arguments callbacks_at _ {_ _} _.
Arguments magic_check _ {_ _} _.
Arguments implemented {_} _.
Arguments implements_all_hooks {_ _} _.
Arguments run_call {_ _} _ _.
Arguments run_calls {_ _} _ _.
Arguments validate_post {_ _} _ _ _ _ _.
Arguments validate_logged {_ _} _ _ _.
Arguments validate_before_store {_ _} _ _ _.
Arguments poke_state {_ _} _ _ _.
Arguments outcome_map {_ _ _} _ _.

(** ** A concrete host state

    Block 1 is a request buffer that carries the bearer token after the
    scheme name, block 2 the role name, block 3 the zeroed result
    structure that the host passes, block 4 the host's state structure.
    Both structures are taken without further fields. *)

Definition example_magic : Z := 0x20250220.

Definition example_result : ValidatorModuleResult unit :=
  {| authorized := false; authn_id := NULL; result_rest := tt |}.

Definition example_mem : mem unit unit :=
  {| heap :=
       <[1%N := Chars ("Bearer " +:+ with_terminator "s3cr3t")]>
         (<[2%N := Chars (with_terminator "alice")]>
            (<[3%N := ResultObj example_result]>
               (<[4%N := StateObj tt]> ∅)));
     log := [] |}.

Definition example_token : ptr := Ptr 1 7.
Definition example_role : ptr := Ptr 2 0.
Definition example_result_ptr : ptr := Ptr 3 0.
Definition example_state : ptr := Ptr 4 0.

(** ** Sequences of calls *)

(** The records that a call writes when it is made in [m]: none for the
    init entry point, one for [validate]. [None] for a [validate] whose
    arguments are not a token, a role and a result structure in [m]. *)
Definition call_records {S R} (m : mem S R) (c : host_call)
    : option (list log_record) :=
  match c with
  | call_init => Some []
  | call_validate _ token role res =>
      match cstring_at m token, cstring_at m role, result_at m res with
      | Some tok, Some rol, Some _ => Some [accept_record tok rol]
      | _, _, _ => None
      end
  end.

Fixpoint calls_records {S R} (m : mem S R) (cs : list host_call)
    : option (list log_record) :=
  match cs with
  | [] => Some []
  | c :: cs' =>
      match call_records m c, calls_records m cs' with
      | Some recs, Some recs' => Some (recs ++ recs')%list
      | _, _ => None
      end
  end.

(** The calls of [validate] among [cs]. *)
Fixpoint validations (cs : list host_call) : nat :=
  match cs with
  | [] => 0
  | call_init :: cs' => validations cs'
  | call_validate _ _ _ _ :: cs' => S (validations cs')
  end.

(** Two requests in the concrete host state: the second presents the role
    name as its token. *)
Definition example_calls : list host_call :=
  [ call_validate example_state example_token example_role example_result_ptr;
    call_init;
    call_validate NULL example_role example_role example_result_ptr ].

(** * Properties *)

(** ** C strings and formatting *)

Lemma with_terminator_cons c s :
  with_terminator (String c s) = String c (with_terminator s).
Proof. reflexivity. Qed.

(** A C string that was read from an array is read back from the array it
    occupies on its own: it holds no terminator. *)
Lemma read_cstring_with_terminator bs s :
  read_cstring bs = Some s → read_cstring (with_terminator s) = Some s.
Proof.
  revert s. induction bs as [|c bs IH]; intros s; simpl; [discriminate|].
  destruct (Ascii.eqb c NUL) eqn:Hc.
  - intros [= <-]. reflexivity.
  - destruct (read_cstring bs) as [s'|] eqn:Hbs; [|discriminate].
    intros [= <-]. rewrite with_terminator_cons. simpl.
    rewrite Hc, (IH s' eq_refl). reflexivity.
Qed.

(** The array that a C string is read from starts with the string and its
    terminator: these are the [strlen + 1] characters that a duplication
    copies. *)
Lemma read_cstring_prefix bs s :
  read_cstring bs = Some s → ∃ rest, bs = with_terminator s +:+ rest.
Proof.
  revert s. induction bs as [|a bs IH]; intros s; simpl; [discriminate|].
  destruct (Ascii.eqb a NUL) eqn:Ha.
  - intros [= <-]. apply Ascii.eqb_eq in Ha. subst a. by exists bs.
  - destruct (read_cstring bs) as [s'|] eqn:Hbs; [|discriminate].
    intros [= <-]. destruct (IH s' eq_refl) as [rest ->].
    by exists rest.
Qed.

Lemma read_cstring_first_chars bs s :
  read_cstring bs = Some s → first_chars (strlen s + 1) bs = with_terminator s.
Proof.
  intros [rest ->]%read_cstring_prefix. clear.
  induction s as [|c s IH]; [reflexivity|].
  change (String c (first_chars (strlen s + 1) (with_terminator s +:+ rest))
          = String c (with_terminator s)).
  by rewrite IH.
Qed.

Lemma append_assoc (a b c : string) : (a +:+ b) +:+ c = a +:+ (b +:+ c).
Proof.
  induction a as [|x a IH]; [reflexivity|].
  change (String x ((a +:+ b) +:+ c) = String x (a +:+ (b +:+ c))).
  by rewrite IH.
Qed.

Lemma format_accept tok rol :
  format "accept token '%s' for role '%s'" [tok; rol]
  = Some (message (accept_record tok rol)).
Proof. reflexivity. Qed.

Lemma accept_record_contains tok rol :
  contains (message (accept_record tok rol)) tok
  ∧ contains (message (accept_record tok rol)) rol.
Proof.
  split.
  - by exists "accept token '", ("' for role '" +:+ rol +:+ "'").
  - exists ("accept token '" +:+ tok +:+ "' for role '"), "'".
    unfold accept_record, message. by rewrite !append_assoc.
Qed.

Section Properties.

Context {ValidatorModuleState ResultRest : Type}.
Variable PG_OAUTH_VALIDATOR_MAGIC : Z.

Implicit Types (m : mem ValidatorModuleState ResultRest)
  (r : ValidatorModuleResult ResultRest)
  (p state token role res : ptr) (tok rol : string) (b rb : N).

(** ** Memory *)

Lemma fresh_block_unused m : heap m !! fresh (dom (heap m)) = None.
Proof. apply not_elem_of_dom, is_fresh. Qed.

Lemma result_at_inv m p r :
  result_at m p = Some r ↔
  ∃ rb, p = Ptr rb 0 ∧ heap m !! rb = Some (ResultObj r).
Proof.
  split.
  - destruct p as [| |rb [|n]]; simpl; try discriminate.
    destruct (heap m !! rb) as [[]|] eqn:Hrb; try discriminate.
    intros [= ->]. by exists rb.
  - intros (rb & -> & Hrb). simpl. by rewrite Hrb.
Qed.

Lemma cstring_at_null m : cstring_at m NULL = None.
Proof. reflexivity. Qed.

(** ** The three steps of [validate] *)

(** A C string is printed as it is. *)
Lemma printed_at_cstring m p s :
  cstring_at m p = Some s → printed_at m p = Some s.
Proof. by destruct p. Qed.

(** What is printed for a pointer that is not null is the C string. *)
Lemma printed_at_not_null m p s :
  printed_at m p = Some s → p = NULL ∨ cstring_at m p = Some s.
Proof. destruct p; [by left|by right..]. Qed.

Lemma elog_accept m token role tok rol :
  printed_at m token = Some tok →
  printed_at m role = Some rol →
  elog LOG "accept token '%s' for role '%s'" [token; role] m
  = Returned tt {| heap := heap m; log := log m ++ [accept_record tok rol] |}.
Proof.
  intros Ht Hr. unfold elog, bind. cbn [load_args].
  unfold bind, load_arg, ret. rewrite Ht, Hr. reflexivity.
Qed.

Lemma elog_fault m lvl fmt p ps :
  printed_at m p = None → elog lvl fmt (p :: ps) m = Fault m.
Proof.
  intros Hp. unfold elog, bind. cbn [load_args].
  unfold bind, load_arg. by rewrite Hp.
Qed.

Lemma elog_fault_second m lvl fmt p q ps s :
  printed_at m p = Some s →
  printed_at m q = None → elog lvl fmt (p :: q :: ps) m = Fault m.
Proof.
  intros Hp Hq. unfold elog, bind. cbn [load_args].
  unfold bind, load_arg. by rewrite Hp, Hq.
Qed.

Lemma pstrdup_ok m p s :
  cstring_at m p = Some s →
  pstrdup p m
  = Returned (Ptr (fresh (dom (heap m))) 0)
      {| heap := <[fresh (dom (heap m)) := Chars (with_terminator s)]> (heap m);
         log := log m |}.
Proof. intros Hp. unfold pstrdup, bind, load_cstring. by rewrite Hp. Qed.

Lemma pstrdup_fault m p : cstring_at m p = None → pstrdup p m = Fault m.
Proof. intros Hp. unfold pstrdup, bind, load_cstring. by rewrite Hp. Qed.

Lemma store_result_ok m rb r upd :
  heap m !! rb = Some (ResultObj r) →
  store_result (Ptr rb 0) upd m
  = Returned tt {| heap := <[rb := ResultObj (upd r)]> (heap m); log := log m |}.
Proof. intros Hrb. unfold store_result. by rewrite Hrb. Qed.

Lemma store_result_fault m p upd :
  result_at m p = None → store_result p upd m = Fault m.
Proof.
  destruct p as [| |rb [|n]]; simpl; try done.
  by destruct (heap m !! rb) as [[]|].
Qed.

(** An allocation does not make a pointer that was not one to a result
    structure into one: the block it takes holds a [char] array. *)
Lemma result_at_alloc_chars m p bs :
  result_at m p = None →
  result_at {| heap := <[fresh (dom (heap m)) := Chars bs]> (heap m);
               log := log m |} p = None.
Proof.
  destruct p as [| |rb [|n]]; simpl; try done.
  destruct (decide (fresh (dom (heap m)) = rb)) as [<-|Hne].
  - by rewrite lookup_insert_eq.
  - by rewrite lookup_insert_ne.
Qed.

(** ** [validate], case by case *)

(** A call with a token, a role that the log can print and a result
    structure returns. *)
Lemma validate_ok_printed m state token role rb tok rol r :
  cstring_at m token = Some tok →
  printed_at m role = Some rol →
  heap m !! rb = Some (ResultObj r) →
  validate state token role (Ptr rb 0) m
  = Returned true (validate_post m tok rol rb r).
Proof.
  intros Ht Hr Hrb. unfold validate, bind.
  rewrite (elog_accept m token role tok rol (printed_at_cstring _ _ _ Ht) Hr).
  cbv beta iota.
  erewrite pstrdup_ok by exact Ht. cbn [heap log].
  assert (Hne : fresh (dom (heap m)) ≠ rb).
  { intros <-. by rewrite fresh_block_unused in Hrb. }
  erewrite store_result_ok; last by (cbn [heap]; rewrite lookup_insert_ne).
  erewrite store_result_ok; last by (cbn [heap]; rewrite lookup_insert_eq).
  unfold ret, validate_post. cbn [heap log]. by rewrite insert_insert_eq.
Qed.

(** A call with readable strings and a result structure returns. *)
Lemma validate_ok m state token role rb tok rol r :
  cstring_at m token = Some tok →
  cstring_at m role = Some rol →
  heap m !! rb = Some (ResultObj r) →
  validate state token role (Ptr rb 0) m
  = Returned true (validate_post m tok rol rb r).
Proof.
  intros Ht Hr Hrb. apply validate_ok_printed; [done| |done].
  by apply printed_at_cstring.
Qed.

(** A token or a role that cannot be printed: the fault is in line 10,
    before anything is written. *)
Lemma validate_fault_token m state token role res :
  printed_at m token = None →
  validate state token role res m = Fault m.
Proof.
  intros Ht. unfold validate, bind. by rewrite (elog_fault _ _ _ _ _ Ht).
Qed.

Lemma validate_fault_role m state token role res tok :
  printed_at m token = Some tok →
  printed_at m role = None →
  validate state token role res m = Fault m.
Proof.
  intros Ht Hr. unfold validate, bind.
  by rewrite (elog_fault_second _ _ _ _ _ _ _ Ht Hr).
Qed.

(** A token that is printed and is no string is the null pointer: the
    record is written, and the fault is in line 11. *)
Lemma validate_fault_copy m state token role res tok rol :
  printed_at m token = Some tok →
  printed_at m role = Some rol →
  cstring_at m token = None →
  validate state token role res m = Fault (validate_logged m tok rol).
Proof.
  intros Hpt Hr Ht. unfold validate, bind.
  rewrite (elog_accept m token role tok rol Hpt Hr). cbv beta iota.
  by rewrite pstrdup_fault.
Qed.

(** When only the result pointer is bad, the fault comes after the record
    is written and the copy is made. *)
Lemma validate_fault_result m state token role res tok rol :
  cstring_at m token = Some tok →
  printed_at m role = Some rol →
  result_at m res = None →
  validate state token role res m = Fault (validate_before_store m tok rol).
Proof.
  intros Ht Hr Hres. unfold validate, bind.
  rewrite (elog_accept m token role tok rol (printed_at_cstring _ _ _ Ht) Hr).
  cbv beta iota.
  erewrite pstrdup_ok by exact Ht. cbn [heap log].
  rewrite store_result_fault; [done|].
  by apply (result_at_alloc_chars m).
Qed.

(** Every call is one of the cases above. *)
Lemma validate_cases m state token role res :
  ((printed_at m token = None ∨ printed_at m role = None)
   ∧ validate state token role res m = Fault m)
  ∨ (∃ tok rol,
       printed_at m token = Some tok ∧ printed_at m role = Some rol
       ∧ cstring_at m token = None
       ∧ validate state token role res m = Fault (validate_logged m tok rol))
  ∨ (∃ tok rol,
       cstring_at m token = Some tok ∧ printed_at m role = Some rol
       ∧ result_at m res = None
       ∧ validate state token role res m
         = Fault (validate_before_store m tok rol))
  ∨ (∃ tok rol rb r,
       cstring_at m token = Some tok ∧ printed_at m role = Some rol
       ∧ res = Ptr rb 0 ∧ heap m !! rb = Some (ResultObj r)
       ∧ validate state token role res m
         = Returned true (validate_post m tok rol rb r)).
Proof.
  destruct (printed_at m token) as [ptok|] eqn:Hpt;
    [|left; split; [by left|by apply validate_fault_token]].
  destruct (printed_at m role) as [rol|] eqn:Hr;
    [|left; split; [by right|by apply (validate_fault_role _ _ _ _ _ ptok)]].
  destruct (cstring_at m token) as [tok|] eqn:Ht.
  - destruct (result_at m res) as [r|] eqn:Hres.
    + apply result_at_inv in Hres as (rb & -> & Hrb).
      do 3 right. exists tok, rol, rb, r.
      repeat split; try done. by apply validate_ok_printed.
    + right; right; left. exists tok, rol.
      repeat split; try done. by apply validate_fault_result.
  - right; left. exists ptok, rol.
    repeat split; try done. by apply validate_fault_copy.
Qed.

Lemma validate_returned m state token role res v m' :
  validate state token role res m = Returned v m' →
  ∃ tok rol rb r,
    cstring_at m token = Some tok ∧ printed_at m role = Some rol
    ∧ res = Ptr rb 0 ∧ heap m !! rb = Some (ResultObj r)
    ∧ v = true ∧ m' = validate_post m tok rol rb r.
Proof.
  intros Hv.
  destruct (validate_cases m state token role res)
    as [[_ Hf]|[(tok & rol & _ & _ & _ & Hf)
               |[(tok & rol & _ & _ & _ & Hf)
                |(tok & rol & rb & r & Ht & Hr & -> & Hrb & Hok)]]];
    [congruence..|].
  rewrite Hok in Hv. injection Hv as <- <-. by exists tok, rol, rb, r.
Qed.

(** ** The memory in which [validate] returns *)

Lemma validate_post_other m tok rol rb r b x :
  heap m !! b = Some x → b ≠ rb →
  heap (validate_post m tok rol rb r) !! b = Some x.
Proof.
  intros Hb Hne. unfold validate_post. cbn [heap].
  rewrite lookup_insert_ne by done. rewrite lookup_insert_ne; [done|].
  intros <-. by rewrite fresh_block_unused in Hb.
Qed.

Lemma validate_post_result m tok rol rb r :
  result_at (validate_post m tok rol rb r) (Ptr rb 0)
  = Some {| authorized := true; authn_id := Ptr (fresh (dom (heap m))) 0;
            result_rest := result_rest r |}.
Proof. unfold validate_post. simpl. by rewrite lookup_insert_eq. Qed.

Lemma validate_post_copy m tok rol rb r :
  heap m !! rb = Some (ResultObj r) →
  heap (validate_post m tok rol rb r) !! fresh (dom (heap m))
  = Some (Chars (with_terminator tok)).
Proof.
  intros Hrb. unfold validate_post. cbn [heap].
  rewrite lookup_insert_ne; [by rewrite lookup_insert_eq|].
  intros ->. by rewrite fresh_block_unused in Hrb.
Qed.

Lemma validate_post_dom m tok rol rb r :
  heap m !! rb = Some (ResultObj r) →
  dom (heap (validate_post m tok rol rb r))
  = {[fresh (dom (heap m))]} ∪ dom (heap m).
Proof.
  intros Hrb. unfold validate_post. cbn [heap].
  rewrite dom_insert_lookup_L; [apply dom_insert_L|].
  rewrite lookup_insert_ne; [by rewrite Hrb|].
  intros Heq. by rewrite <- Heq, fresh_block_unused in Hrb.
Qed.

(** A C string is read the same from a memory that keeps its array. *)
Lemma cstring_at_preserved m m' p s :
  (∀ b bs, heap m !! b = Some (Chars bs) → heap m' !! b = Some (Chars bs)) →
  cstring_at m p = Some s → cstring_at m' p = Some s.
Proof.
  intros Hkeep. destruct p as [| |b ofs]; simpl; try done.
  destruct (heap m !! b) as [[bs| |]|] eqn:Hb; try done.
  by rewrite (Hkeep b bs Hb).
Qed.

Lemma cstring_at_post m tok rol rb r p s :
  heap m !! rb = Some (ResultObj r) →
  cstring_at m p = Some s →
  cstring_at (validate_post m tok rol rb r) p = Some s.
Proof.
  intros Hrb. apply cstring_at_preserved. intros b bs Hb.
  apply validate_post_other; [done|]. intros ->. congruence.
Qed.

(** ** What [validate] returns *)

(** C1. Whatever the token and the role hold, [validate] reports success:
    no call returns [false], and a call with a token, a role and a result
    structure returns [true]. *)
Theorem validate_reports_success state token role res m :
  (∀ v m', validate state token role res m = Returned v m' → v = true)
  ∧ (∀ tok rol r,
       cstring_at m token = Some tok →
       cstring_at m role = Some rol →
       result_at m res = Some r →
       ∃ m', validate state token role res m = Returned true m').
Proof.
  split.
  - intros v m' Hv.
    by destruct (validate_returned _ _ _ _ _ _ _ Hv) as (?&?&?&?&_&_&_&_&->&_).
  - intros tok rol r Ht Hr Hres.
    apply result_at_inv in Hres as (rb & -> & Hrb).
    eexists. by apply (validate_ok _ _ _ _ _ tok rol r).
Qed.

(** The copy that [validate_post] holds: its block was unused, it holds the
    token character for character, the token is still in place under
    another pointer, and it is the one block added. *)
Lemma validate_post_fresh_copy m token tok rol rb r :
  cstring_at m token = Some tok →
  heap m !! rb = Some (ResultObj r) →
  let b := fresh (dom (heap m)) in
  let m' := validate_post m tok rol rb r in
  heap m !! b = None
  ∧ heap m' !! b = Some (Chars (with_terminator tok))
  ∧ cstring_at m' (Ptr b 0) = Some tok
  ∧ cstring_at m' token = Some tok
  ∧ (∀ ofs, token ≠ Ptr b ofs)
  ∧ dom (heap m') = {[b]} ∪ dom (heap m).
Proof.
  intros Ht Hrb. cbv zeta.
  split; [apply fresh_block_unused|].
  split; [by apply validate_post_copy|].
  split.
  { unfold cstring_at at 1. rewrite (validate_post_copy _ _ _ _ _ Hrb).
    cbn [skip].
    destruct token as [| |tb ofs]; try done. simpl in Ht.
    destruct (heap m !! tb) as [[bs| |]|]; try done.
    by apply (read_cstring_with_terminator (skip ofs bs)). }
  split; [by apply cstring_at_post|].
  split; [|by apply validate_post_dom].
  intros ofs ->. simpl in Ht. by rewrite fresh_block_unused in Ht.
Qed.

(** C2. When [validate] returns, the token was a string, and [authn_id]
    points to a string that [validate] allocated (its block [b] was unused
    before the call and is live at the return), that holds the token
    character for character and is not the token's own pointer; the token
    is still in place, and the copy is the one block that the call adds to
    the memory. A call with a token, a role and a result structure does
    return. *)
Theorem validate_authn_id_is_fresh_copy state token role res m :
  (∀ v m', validate state token role res m = Returned v m' →
     ∃ tok b r',
       cstring_at m token = Some tok
       ∧ result_at m' res = Some r' ∧ authn_id r' = Ptr b 0
       ∧ heap m !! b = None
       ∧ heap m' !! b = Some (Chars (with_terminator tok))
       ∧ cstring_at m' (Ptr b 0) = Some tok
       ∧ cstring_at m' token = Some tok
       ∧ (∀ ofs, token ≠ Ptr b ofs)
       ∧ dom (heap m') = {[b]} ∪ dom (heap m))
  ∧ (∀ tok rol r,
       cstring_at m token = Some tok →
       cstring_at m role = Some rol →
       result_at m res = Some r →
       returns (validate state token role res m) = true).
Proof.
  split.
  - intros v m' Hv.
    destruct (validate_returned _ _ _ _ _ _ _ Hv)
      as (tok & rol & rb & r & Ht & _ & -> & Hrb & _ & ->).
    exists tok, (fresh (dom (heap m))). eexists.
    split; [done|]. split; [apply validate_post_result|]. split; [done|].
    by apply validate_post_fresh_copy.
  - intros tok rol r Ht Hr Hres.
    apply result_at_inv in Hres as (rb & -> & Hrb).
    by rewrite (validate_ok _ _ _ _ _ tok rol r).
Qed.

(** C3. [validate] does not return before the [authorized] field of the
    result structure is [true]; and a call with a token, a role and a
    result structure does return. *)
Theorem validate_sets_authorized state token role res m :
  (∀ v m', validate state token role res m = Returned v m' →
     authorized <$> result_at m' res = Some true)
  ∧ (∀ tok rol r,
       cstring_at m token = Some tok →
       cstring_at m role = Some rol →
       result_at m res = Some r →
       returns (validate state token role res m) = true).
Proof.
  split.
  - intros v m' Hv.
    destruct (validate_returned _ _ _ _ _ _ _ Hv)
      as (tok & rol & rb & r & _ & _ & -> & _ & _ & ->).
    by rewrite validate_post_result.
  - intros tok rol r Ht Hr Hres.
    apply result_at_inv in Hres as (rb & -> & Hrb).
    by rewrite (validate_ok _ _ _ _ _ tok rol r).
Qed.

(** C9. The value that [validate] returns is the value it left in the
    [authorized] field, and both are [true]; and a call with a token, a
    role and a result structure does return. *)
Theorem validate_return_is_authorized state token role res m :
  (∀ v m', validate state token role res m = Returned v m' →
     authorized <$> result_at m' res = Some v ∧ v = true)
  ∧ (∀ tok rol r,
       cstring_at m token = Some tok →
       cstring_at m role = Some rol →
       result_at m res = Some r →
       ∃ m' r', validate state token role res m = Returned true m'
                ∧ result_at m' res = Some r' ∧ authorized r' = true).
Proof.
  split.
  - intros v m' Hv.
    destruct (validate_returned _ _ _ _ _ _ _ Hv)
      as (tok & rol & rb & r & _ & _ & -> & _ & -> & ->).
    by rewrite validate_post_result.
  - intros tok rol r Ht Hr Hres.
    apply result_at_inv in Hres as (rb & -> & Hrb).
    do 2 eexists. split; [by apply (validate_ok _ _ _ _ _ tok rol r)|].
    by rewrite validate_post_result.
Qed.

(** ** The log *)

(** C7. A call in which the token and the role are strings appends exactly
    one record to the log, at level [LOG], whose message holds the token
    and the role; this depends on nothing else (not on the state, not on
    the result pointer, not on what the memory holds besides), and no
    call appends more than one record. *)
Theorem validate_logs_once state token role res m :
  let o := validate state token role res m in
  (log (final o) = log m ∨ ∃ rec, log (final o) = (log m ++ [rec])%list)
  ∧ (∀ tok rol,
       cstring_at m token = Some tok →
       cstring_at m role = Some rol →
       log (final o) = (log m ++ [accept_record tok rol])%list
       ∧ level (accept_record tok rol) = LOG
       ∧ contains (message (accept_record tok rol)) tok
       ∧ contains (message (accept_record tok rol)) rol).
Proof.
  cbv zeta.
  destruct (validate_cases m state token role res)
    as [[Hbad ->]|[(tok & rol & _ & _ & Ht & ->)
                  |[(tok & rol & Ht & Hr & _ & ->)
                   |(tok & rol & rb & r & Ht & Hr & _ & _ & ->)]]].
  - split; [by left|]. intros tok rol Ht%printed_at_cstring Hr%printed_at_cstring.
    destruct Hbad; congruence.
  - split; [right; by eexists|]. intros tok' rol' Ht' Hr'. congruence.
  - split; [right; by eexists|]. intros tok' rol' Ht' Hr'%printed_at_cstring.
    assert (tok' = tok) as -> by congruence.
    assert (rol' = rol) as -> by congruence.
    split; [done|]. split; [done|]. apply accept_record_contains.
  - split; [right; by eexists|]. intros tok' rol' Ht' Hr'%printed_at_cstring.
    assert (tok' = tok) as -> by congruence.
    assert (rol' = rol) as -> by congruence.
    split; [done|]. split; [done|]. apply accept_record_contains.
Qed.

(** ** The frame of [validate] *)

Section Poke.

(** Block [b] holds the host's state structure, which is overwritten. *)
Variables (m : mem ValidatorModuleState ResultRest) (b : N)
  (s s' : ValidatorModuleState).
Hypothesis Hb : heap m !! b = Some (StateObj s).

Lemma poke_state_used : b ≠ fresh (dom (heap m)).
Proof. intros Heq. pose proof (fresh_block_unused m) as Hf. congruence. Qed.

Lemma poke_state_dom : dom (heap (poke_state b s' m)) = dom (heap m).
Proof. unfold poke_state. cbn [heap]. apply dom_insert_lookup_L. by rewrite Hb. Qed.

Lemma poke_state_other b' :
  b' ≠ b → heap (poke_state b s' m) !! b' = heap m !! b'.
Proof. intros Hne. unfold poke_state. cbn [heap]. by rewrite lookup_insert_ne. Qed.

Lemma cstring_at_poke p : cstring_at (poke_state b s' m) p = cstring_at m p.
Proof.
  destruct p as [| |b' ofs]; try done. unfold cstring_at.
  destruct (decide (b' = b)) as [->|Hne].
  - unfold poke_state. cbn [heap]. by rewrite lookup_insert_eq, Hb.
  - by rewrite poke_state_other.
Qed.

Lemma printed_at_poke p : printed_at (poke_state b s' m) p = printed_at m p.
Proof. destruct p; try done. apply cstring_at_poke. Qed.

Lemma result_at_poke p : result_at (poke_state b s' m) p = result_at m p.
Proof.
  destruct p as [| |b' [|n]]; try done. unfold result_at.
  destruct (decide (b' = b)) as [->|Hne].
  - unfold poke_state. cbn [heap]. by rewrite lookup_insert_eq, Hb.
  - by rewrite poke_state_other.
Qed.

Lemma validate_before_store_poke tok rol :
  validate_before_store (poke_state b s' m) tok rol
  = poke_state b s' (validate_before_store m tok rol).
Proof.
  unfold validate_before_store. rewrite poke_state_dom.
  unfold poke_state. cbn [heap log]. f_equal.
  apply insert_insert_ne. intros Heq. by apply poke_state_used.
Qed.

Lemma validate_post_poke tok rol rb r :
  heap m !! rb = Some (ResultObj r) →
  validate_post (poke_state b s' m) tok rol rb r
  = poke_state b s' (validate_post m tok rol rb r).
Proof.
  intros Hrb. unfold validate_post. rewrite poke_state_dom.
  unfold poke_state. cbn [heap log]. f_equal.
  assert (b ≠ rb) by (intros Heq; congruence).
  rewrite (insert_insert_ne _ b rb) by done.
  by rewrite (insert_insert_ne _ b (fresh (dom (heap m)))) by apply poke_state_used.
Qed.

(** [validate] runs the same whatever the state structure holds. *)
Lemma validate_poke state token role res :
  validate state token role res (poke_state b s' m)
  = outcome_map (poke_state b s') (validate state token role res m).
Proof.
  destruct (validate_cases m state token role res)
    as [[Hbad ->]|[(tok & rol & Hpt & Hr & Ht & ->)
                  |[(tok & rol & Ht & Hr & Hres & ->)
                   |(tok & rol & rb & r & Ht & Hr & -> & Hrb & ->)]]];
    cbn [outcome_map].
  - destruct Hbad as [Ht|Hr].
    + apply validate_fault_token. by rewrite printed_at_poke.
    + destruct (printed_at m token) as [tok|] eqn:Ht.
      * apply (validate_fault_role _ _ _ _ _ tok); by rewrite printed_at_poke.
      * apply validate_fault_token. by rewrite printed_at_poke.
  - change (poke_state b s' (validate_logged m tok rol))
      with (validate_logged (poke_state b s' m) tok rol).
    apply validate_fault_copy; by rewrite ?printed_at_poke, ?cstring_at_poke.
  - rewrite <- validate_before_store_poke.
    apply validate_fault_result;
      by rewrite ?printed_at_poke, ?cstring_at_poke, ?result_at_poke.
  - rewrite <- validate_post_poke by done.
    apply validate_ok_printed; rewrite ?printed_at_poke, ?cstring_at_poke; try done.
    rewrite poke_state_other; [done|]. intros ->. congruence.
Qed.

End Poke.

(** C8. [validate] makes no use of its state argument: the call runs the
    same for any state pointer and for any contents of a state structure.
    Of what the memory held before the call, every object is left as it
    was except the result structure that [res] points to, whose fields
    other than [authn_id] and [authorized] are left as they were; and the
    records that the log held are left in place. This holds of the memory
    in which the call returns and of the one in which it faults. *)
Theorem validate_frame state token role res m :
  let o := validate state token role res m in
  (∀ state', validate state' token role res m = o)
  ∧ (∀ b s s',
       heap m !! b = Some (StateObj s) →
       validate state token role res (poke_state b s' m)
       = outcome_map (poke_state b s') o
       ∧ heap (final o) !! b = Some (StateObj s))
  ∧ (∀ b x,
       heap m !! b = Some x →
       heap (final o) !! b = Some x
       ∨ (res = Ptr b 0
          ∧ ∃ r r', x = ResultObj r
                    ∧ heap (final o) !! b = Some (ResultObj r')
                    ∧ result_rest r' = result_rest r))
  ∧ (∃ recs, log (final o) = (log m ++ recs)%list).
Proof.
  cbv zeta.
  assert (Hframe : ∀ b x,
    heap m !! b = Some x →
    heap (final (validate state token role res m)) !! b = Some x
    ∨ (res = Ptr b 0
       ∧ ∃ r r', x = ResultObj r
           ∧ heap (final (validate state token role res m)) !! b
             = Some (ResultObj r')
           ∧ result_rest r' = result_rest r)).
  { intros b x Hb.
    destruct (validate_cases m state token role res)
      as [[_ ->]|[(tok & rol & _ & _ & _ & ->)
                 |[(tok & rol & _ & _ & _ & ->)
                  |(tok & rol & rb & r & _ & _ & -> & Hrb & ->)]]];
      cbn [final].
    - by left.
    - by left.
    - left. unfold validate_before_store. cbn [heap].
      rewrite lookup_insert_ne; [done|].
      intros Heq. by rewrite <- Heq, fresh_block_unused in Hb.
    - destruct (decide (b = rb)) as [->|Hne].
      + right. split; [done|]. exists r. eexists.
        split; [congruence|].
        split; [unfold validate_post; cbn [heap]; apply lookup_insert_eq|].
        reflexivity.
      + left. by apply validate_post_other. }
  split; [done|]. split; [|split; [exact Hframe|]].
  - intros b s s' Hb. split; [by apply (validate_poke m b s)|].
    by destruct (Hframe b _ Hb) as [?|(_ & r & r' & ? & _)].
  - destruct (validate_cases m state token role res)
      as [[_ ->]|[(tok & rol & _ & _ & _ & ->)
                 |[(tok & rol & _ & _ & _ & ->)
                  |(tok & rol & rb & r & _ & _ & _ & _ & ->)]]];
      cbn [final].
    + exists []. by rewrite app_nil_r.
    + by eexists.
    + by eexists.
    + by eexists.
Qed.

(** ** Safety *)

(** C10, as amended. [validate] checks none of its pointers. A call with
    a token and a role that are strings and a result pointer that points
    to a result structure returns: nothing in it faults. A call returns
    only if the token is a string, the result pointer points to a result
    structure and the role, unless it is null, is a string; so a null
    token and a null result pointer each make the call fault. *)
Theorem validate_safety state token role res m :
  (∀ tok rol r,
     cstring_at m token = Some tok →
     cstring_at m role = Some rol →
     result_at m res = Some r →
     returns (validate state token role res m) = true)
  ∧ (returns (validate state token role res m) = true →
     is_Some (cstring_at m token)
     ∧ (role = NULL ∨ is_Some (cstring_at m role))
     ∧ is_Some (result_at m res))
  ∧ returns (validate state NULL role res m) = false
  ∧ returns (validate state token role NULL m) = false.
Proof.
  split; [|split; [|split]].
  - intros tok rol r Ht Hr (rb & -> & Hrb)%result_at_inv.
    by rewrite (validate_ok _ _ _ _ _ tok rol r).
  - destruct (validate_cases m state token role res)
      as [[_ ->]|[(tok & rol & _ & _ & _ & ->)
                 |[(tok & rol & _ & _ & _ & ->)
                  |(tok & rol & rb & r & Ht & Hr & -> & Hrb & ->)]]];
      cbn [returns]; [done..|].
    intros _. split; [by eexists|]. split.
    + destruct (printed_at_not_null _ _ _ Hr) as [?|?]; [by left|right; by eexists].
    + exists r. apply result_at_inv. by exists rb.
  - destruct (validate_cases m state NULL role res)
      as [[_ ->]|[(tok & rol & _ & _ & _ & ->)
                 |[(tok & rol & Ht & _)|(tok & rol & rb & r & Ht & _)]]];
      done.
  - destruct (validate_cases m state token role NULL)
      as [[_ ->]|[(tok & rol & _ & _ & _ & ->)
                 |[(tok & rol & _ & _ & _ & ->)
                  |(tok & rol & rb & r & _ & _ & Hres & _)]]];
      done.
Qed.

(** ** The callback table and the init entry point *)

(** C4, as amended. Of the three hooks the table carries an implementation
    of [validate] alone: the startup and the shutdown entries are null. *)
Theorem callbacks_hooks :
  let cb := callbacks PG_OAUTH_VALIDATOR_MAGIC ValidatorModuleState ResultRest in
  startup_cb cb = None ∧ shutdown_cb cb = None
  ∧ validate_cb cb = Some validate
  ∧ implemented (validate_cb cb) = true.
Proof. cbv zeta. by repeat split. Qed.

(** C5. The table carries the host's magic number, so the host's check of
    it succeeds; and this is so of the table that the init entry point
    hands out after any calls into the module, from any memory. *)
Theorem callbacks_magic :
  let cb := callbacks PG_OAUTH_VALIDATOR_MAGIC ValidatorModuleState ResultRest in
  magic cb = PG_OAUTH_VALIDATOR_MAGIC
  ∧ magic_check PG_OAUTH_VALIDATOR_MAGIC cb = true
  ∧ ∀ cs m,
      let m' := final (run_calls cs m) in
      ∃ p,
        _PG_oauth_validator_module_init m' = Returned p m'
        ∧ callbacks_at PG_OAUTH_VALIDATOR_MAGIC p = Some cb.
Proof.
  cbv zeta.
  assert (Hcheck : magic_check PG_OAUTH_VALIDATOR_MAGIC
    (callbacks PG_OAUTH_VALIDATOR_MAGIC ValidatorModuleState ResultRest) = true).
  { unfold magic_check, callbacks. cbn [magic]. apply Z.eqb_refl. }
  split; [done|]. split; [done|]. intros cs m.
  by exists (Global G_callbacks).
Qed.

(** C6. The init entry point returns the address of the module's table,
    the same address in every memory and after any calls into the module,
    and leaves the memory (the log with it) as it was. *)
Theorem init_returns_callbacks m :
  ∃ p,
    _PG_oauth_validator_module_init m = Returned p m
    ∧ callbacks_at PG_OAUTH_VALIDATOR_MAGIC p
      = Some (callbacks PG_OAUTH_VALIDATOR_MAGIC ValidatorModuleState ResultRest)
    ∧ (∀ m2 : mem ValidatorModuleState ResultRest,
         _PG_oauth_validator_module_init m2 = Returned p m2)
    ∧ (∀ cs, let m' := final (run_calls cs m) in
             _PG_oauth_validator_module_init m' = Returned p m').
Proof. exists (Global G_callbacks). by repeat split. Qed.

End Properties.

(** * The properties at the concrete host state *)

Example example_validate :
  validate example_state example_token example_role example_result_ptr example_mem
  = Returned true (validate_post example_mem "s3cr3t" "alice" 3 example_result).
Proof. vm_compute. reflexivity. Qed.

Example example_validate_result :
  result_at
    (final (validate example_state example_token example_role
              example_result_ptr example_mem))
    example_result_ptr
  = Some {| authorized := true; authn_id := Ptr 5 0; result_rest := tt |}.
Proof. vm_compute. reflexivity. Qed.

Example example_validate_copy :
  cstring_at
    (final (validate example_state example_token example_role
              example_result_ptr example_mem))
    (Ptr 5 0)
  = Some "s3cr3t".
Proof. vm_compute. reflexivity. Qed.

Example example_validate_log :
  log (final (validate example_state example_token example_role
                example_result_ptr example_mem))
  = [{| level := LOG; message := "accept token 's3cr3t' for role 'alice'" |}].
Proof. vm_compute. reflexivity. Qed.

(** A null token: the record is written with [(null)] for the token, and
    the copy faults. *)
Example example_validate_null_token :
  validate example_state NULL example_role example_result_ptr example_mem
  = Fault (validate_logged example_mem "(null)" "alice").
Proof. vm_compute. reflexivity. Qed.

(** A null role: the call returns, with [(null)] for the role in the log. *)
Example example_validate_null_role :
  validate example_state example_token NULL example_result_ptr example_mem
  = Returned true (validate_post example_mem "s3cr3t" "(null)" 3 example_result).
Proof. vm_compute. reflexivity. Qed.

Example example_validate_null_role_log :
  log (final (validate example_state example_token NULL example_result_ptr
                example_mem))
  = [{| level := LOG; message := "accept token 's3cr3t' for role '(null)'" |}].
Proof. vm_compute. reflexivity. Qed.

(** A token that is not terminated inside its array. *)
Example example_validate_unterminated :
  validate example_state (Ptr 1 0) example_role example_result_ptr
    {| heap := <[1%N := Chars "Bearer"]> (heap example_mem); log := [] |}
  = Fault {| heap := <[1%N := Chars "Bearer"]> (heap example_mem); log := [] |}.
Proof. vm_compute. reflexivity. Qed.

Lemma example_call_is_valid :
  cstring_at example_mem example_token = Some "s3cr3t"
  ∧ cstring_at example_mem example_role = Some "alice"
  ∧ result_at example_mem example_result_ptr = Some example_result.
Proof. vm_compute. by repeat split. Qed.

Lemma validate_reports_success_example :
  ∃ m', validate example_state example_token example_role
          example_result_ptr example_mem = Returned true m'.
Proof.
  destruct example_call_is_valid as (Ht & Hr & Hres).
  exact (proj2 (validate_reports_success example_state example_token
                  example_role example_result_ptr example_mem)
           _ _ _ Ht Hr Hres).
Defined.

Lemma validate_authn_id_is_fresh_copy_example :
  returns (validate example_state example_token example_role
             example_result_ptr example_mem) = true.
Proof.
  destruct example_call_is_valid as (Ht & Hr & Hres).
  exact (proj2 (validate_authn_id_is_fresh_copy example_state example_token
                  example_role example_result_ptr example_mem)
           _ _ _ Ht Hr Hres).
Defined.

Lemma validate_sets_authorized_example :
  returns (validate example_state example_token example_role
             example_result_ptr example_mem) = true.
Proof.
  destruct example_call_is_valid as (Ht & Hr & Hres).
  exact (proj2 (validate_sets_authorized example_state example_token
                  example_role example_result_ptr example_mem)
           _ _ _ Ht Hr Hres).
Defined.

Lemma validate_return_is_authorized_example :
  ∃ m' r',
    validate example_state example_token example_role example_result_ptr
      example_mem = Returned true m'
    ∧ result_at m' example_result_ptr = Some r' ∧ authorized r' = true.
Proof.
  destruct example_call_is_valid as (Ht & Hr & Hres).
  exact (proj2 (validate_return_is_authorized example_state example_token
                  example_role example_result_ptr example_mem)
           _ _ _ Ht Hr Hres).
Defined.

Lemma validate_logs_once_example :
  log (final (validate example_state example_token example_role
                example_result_ptr example_mem))
  = [accept_record "s3cr3t" "alice"].
Proof.
  destruct example_call_is_valid as (Ht & Hr & _).
  exact (proj1 (proj2 (validate_logs_once example_state example_token
                         example_role example_result_ptr example_mem)
                  _ _ Ht Hr)).
Defined.

Lemma validate_frame_example :
  heap (final (validate example_state example_token example_role
                 example_result_ptr example_mem)) !! 4%N
  = Some (StateObj tt).
Proof.
  assert (Hst : heap example_mem !! 4%N = Some (StateObj tt))
    by (vm_compute; reflexivity).
  exact (proj2 (proj1 (proj2 (validate_frame example_state example_token
                                example_role example_result_ptr example_mem))
                  4%N tt tt Hst)).
Defined.

Lemma validate_safety_example :
  returns (validate example_state example_token example_role
             example_result_ptr example_mem) = true.
Proof.
  destruct example_call_is_valid as (Ht & Hr & Hres).
  exact (proj1 (validate_safety example_state example_token example_role
                  example_result_ptr example_mem)
           _ _ _ Ht Hr Hres).
Defined.

(** C4. The table does not carry an implementation of each of the three
    hooks. *)
Lemma callbacks_lack_hooks :
  implements_all_hooks (callbacks example_magic unit unit) = false.
Proof. reflexivity. Qed.

(** C10. Token and role are strings, and the call faults: the result
    pointer is null. *)
Lemma validate_faults_on_null_result :
  cstring_at example_mem example_token = Some "s3cr3t"
  ∧ cstring_at example_mem example_role = Some "alice"
  ∧ returns (validate example_state example_token example_role NULL
               example_mem) = false.
Proof. vm_compute. by repeat split. Qed.

(** * Calls in sequence *)

Section Calls.

Context {ValidatorModuleState ResultRest : Type}.

Implicit Types (m : mem ValidatorModuleState ResultRest)
  (r : ValidatorModuleResult ResultRest)
  (p state token role res : ptr) (tok rol : string) (b rb : N)
  (c : host_call) (cs : list host_call).

(** ** What a returning call keeps *)

Lemma result_at_post m tok rol rb r p r0 :
  result_at m p = Some r0 →
  is_Some (result_at (validate_post m tok rol rb r) p).
Proof.
  intros (rb0 & -> & Hrb0)%result_at_inv.
  destruct (decide (rb0 = rb)) as [->|Hne].
  - rewrite validate_post_result. by eexists.
  - exists r0. apply result_at_inv. exists rb0. split; [done|].
    by apply validate_post_other.
Qed.

Lemma validate_post_size m tok rol rb r :
  heap m !! rb = Some (ResultObj r) →
  size (heap (validate_post m tok rol rb r)) = S (size (heap m)).
Proof.
  intros Hrb. unfold validate_post. cbn [heap].
  rewrite map_size_insert_Some.
  - apply map_size_insert_None, fresh_block_unused.
  - rewrite lookup_insert_ne; [by rewrite Hrb|].
    intros Heq. by rewrite <- Heq, fresh_block_unused in Hrb.
Qed.

Lemma call_records_post m tok rol rb r c recs :
  heap m !! rb = Some (ResultObj r) →
  call_records m c = Some recs →
  call_records (validate_post m tok rol rb r) c = Some recs.
Proof.
  intros Hrb. destruct c as [|st token role res]; [done|]. simpl.
  destruct (cstring_at m token) as [tok'|] eqn:Ht; [|done].
  destruct (cstring_at m role) as [rol'|] eqn:Hr; [|done].
  destruct (result_at m res) as [r0|] eqn:Hres; [|done].
  intros [= <-].
  rewrite (cstring_at_post _ tok rol _ _ _ _ Hrb Ht).
  rewrite (cstring_at_post _ tok rol _ _ _ _ Hrb Hr).
  by destruct (result_at_post m tok rol rb r res r0 Hres) as [? ->].
Qed.

Lemma calls_records_post m tok rol rb r cs recs :
  heap m !! rb = Some (ResultObj r) →
  calls_records m cs = Some recs →
  calls_records (validate_post m tok rol rb r) cs = Some recs.
Proof.
  intros Hrb. revert recs. induction cs as [|c cs IH]; intros recs; [done|].
  simpl. destruct (call_records m c) as [rc|] eqn:Hc; [|done].
  destruct (calls_records m cs) as [rcs|] eqn:Hcs; [|done].
  intros [= <-].
  by rewrite (call_records_post _ _ _ _ _ _ _ Hrb Hc), (IH rcs eq_refl).
Qed.

Lemma result_at_before_store m tok rol p :
  result_at (validate_before_store m tok rol) p = result_at m p.
Proof.
  destruct p as [| |rb [|n]]; try done.
  unfold result_at, validate_before_store. cbn [heap].
  destruct (decide (fresh (dom (heap m)) = rb)) as [<-|Hne].
  - by rewrite lookup_insert_eq, fresh_block_unused.
  - by rewrite lookup_insert_ne.
Qed.

Lemma run_calls_cons_init m cs :
  run_calls (call_init :: cs) m = run_calls cs m.
Proof. reflexivity. Qed.

Lemma run_calls_cons_validate m state token role res cs :
  run_calls (call_validate state token role res :: cs) m
  = match validate state token role res m with
    | Returned _ m' => run_calls cs m'
    | Fault m' => Fault m'
    end.
Proof.
  cbn [run_calls run_call]. unfold bind.
  by destruct (validate state token role res m).
Qed.

(** ** Two calls *)

(** X1. After a call that returned, a second call on the same result
    structure with any token and role that are then strings returns too.
    It stores a pointer to a block of its own; the copy that the first
    call made is neither freed nor overwritten (it still holds the first
    token), and the memory holds two blocks more than before the first
    call. *)
Theorem validate_twice state token role res m v m1 state2 token2 role2 tok2 rol2 :
  validate state token role res m = Returned v m1 →
  cstring_at m1 token2 = Some tok2 →
  cstring_at m1 role2 = Some rol2 →
  ∃ tok b1 b2 m2 r2,
    cstring_at m token = Some tok
    ∧ authn_id <$> result_at m1 res = Some (Ptr b1 0)
    ∧ validate state2 token2 role2 res m1 = Returned true m2
    ∧ result_at m2 res = Some r2
    ∧ authn_id r2 = Ptr b2 0 ∧ authorized r2 = true
    ∧ b1 ≠ b2
    ∧ cstring_at m2 (Ptr b1 0) = Some tok
    ∧ cstring_at m2 (Ptr b2 0) = Some tok2
    ∧ size (heap m2) = size (heap m) + 2.
Proof.
  intros Hv Ht2 Hr2.
  destruct (validate_returned _ _ _ _ _ _ _ Hv)
    as (tok & rol & rb & r & Ht & Hr & -> & Hrb & _ & ->).
  set (m1 := validate_post m tok rol rb r) in *.
  pose proof (validate_post_fresh_copy m token tok rol rb r Ht Hrb)
    as (Hb1 & Hlive1 & Hcopy1 & _ & _ & Hdom1). fold m1 in Hlive1, Hcopy1, Hdom1.
  set (b1 := fresh (dom (heap m))) in *.
  assert (Hres1 : result_at m1 (Ptr rb 0)
    = Some {| authorized := true; authn_id := Ptr b1 0;
              result_rest := result_rest r |})
    by apply validate_post_result.
  pose proof Hres1 as (rb' & [= <-] & Hrb1)%result_at_inv.
  exists tok, b1, (fresh (dom (heap m1))). do 2 eexists.
  split; [done|]. split; [by rewrite Hres1|].
  split; [by apply (validate_ok m1 _ _ _ _ tok2 rol2)|].
  split; [apply validate_post_result|]. split; [done|]. split; [done|].
  pose proof (validate_post_fresh_copy m1 token2 tok2 rol2 rb _ Ht2 Hrb1)
    as (Hb2 & _ & Hcopy2 & _ & _ & _).
  split; [intros Heq; rewrite <- Heq in Hb2; congruence|].
  split; [by apply cstring_at_post|]. split; [done|].
  rewrite validate_post_size by done. unfold m1.
  rewrite validate_post_size by done. lia.
Qed.

(** ** Any number of calls *)

(** X2. Calls of [validate] and of the init entry point, each of them
    with arguments that are valid before the first call, all return when
    made one after the other: the arguments stay valid. The log gains one
    record for each [validate], in the order of the calls, with the
    strings as they were before the first call; the memory gains one
    block for each [validate]; and every string that could be read before
    reads the same after. *)
Theorem run_calls_log cs : ∀ m recs,
  calls_records m cs = Some recs →
  ∃ m',
    run_calls cs m = Returned tt m'
    ∧ log m' = (log m ++ recs)%list
    ∧ size (heap m') = size (heap m) + validations cs
    ∧ (∀ p s, cstring_at m p = Some s → cstring_at m' p = Some s).
Proof.
  induction cs as [|c cs IH]; intros m recs Hrecs.
  - injection Hrecs as <-. exists m. rewrite app_nil_r.
    repeat split; [|done]. simpl. lia.
  - simpl in Hrecs.
    destruct (call_records m c) as [rc|] eqn:Hc; [|done].
    destruct (calls_records m cs) as [rcs|] eqn:Hcs; [|done].
    injection Hrecs as <-.
    destruct c as [|state token role res].
    + injection Hc as <-. rewrite run_calls_cons_init.
      destruct (IH m rcs Hcs) as (m' & Hrun & Hlog & Hsize & Hkeep).
      by exists m'.
    + simpl in Hc.
      destruct (cstring_at m token) as [tok|] eqn:Ht; [|done].
      destruct (cstring_at m role) as [rol|] eqn:Hr; [|done].
      destruct (result_at m res) as [r|] eqn:Hres; [|done].
      injection Hc as <-.
      apply result_at_inv in Hres as (rb & -> & Hrb).
      rewrite run_calls_cons_validate, (validate_ok _ _ _ _ _ tok rol r) by done.
      destruct (IH (validate_post m tok rol rb r) rcs)
        as (m' & Hrun & Hlog & Hsize & Hkeep);
        [by apply calls_records_post|].
      exists m'. split; [done|].
      split; [rewrite Hlog; unfold validate_post; cbn [log];
              by rewrite <- app_assoc|].
      split; [rewrite Hsize, validate_post_size by done; simpl; lia|].
      intros p s Hp. by apply Hkeep, cstring_at_post.
Qed.

(** ** What the role and a fault can do *)

(** X3. The role (and the state) reach the log and nothing else: two
    calls made in the same memory with the same token and result pointer
    return the same value and leave the same objects in memory, whatever
    the two roles are. *)
Theorem validate_result_ignores_role state1 state2 token role1 role2 res m
    v1 m1 v2 m2 :
  validate state1 token role1 res m = Returned v1 m1 →
  validate state2 token role2 res m = Returned v2 m2 →
  v1 = v2 ∧ heap m1 = heap m2.
Proof.
  intros H1 H2.
  destruct (validate_returned _ _ _ _ _ _ _ H1)
    as (tok1 & rol1 & rb1 & r1 & Ht1 & _ & -> & Hrb1 & -> & ->).
  destruct (validate_returned _ _ _ _ _ _ _ H2)
    as (tok2 & rol2 & rb2 & r2 & Ht2 & _ & [= <-] & Hrb2 & -> & ->).
  split; [done|]. unfold validate_post. cbn [heap]. congruence.
Qed.

(** X4. A call that faults authorizes nothing: every object that the
    memory held is as it was, the result structure included, and the
    pointers that point to a result structure, with what they point to,
    are the same as before the call. *)
Theorem validate_fault_writes_nothing state token role res m :
  returns (validate state token role res m) = false →
  (∀ b x, heap m !! b = Some x →
     heap (final (validate state token role res m)) !! b = Some x)
  ∧ (∀ p, result_at (final (validate state token role res m)) p
          = result_at m p).
Proof.
  destruct (validate_cases m state token role res)
    as [[_ ->]|[(tok & rol & _ & _ & _ & ->)
               |[(tok & rol & _ & _ & _ & ->)
                |(tok & rol & rb & r & _ & _ & _ & _ & ->)]]];
    cbn [returns final]; [done|done| |done].
  intros _. split; [|intros p; apply result_at_before_store].
  intros b x Hb. unfold validate_before_store. cbn [heap].
  rewrite lookup_insert_ne; [done|].
  intros Heq. by rewrite <- Heq, fresh_block_unused in Hb.
Qed.

End Calls.

(** ** The calls at the concrete host state *)

Example example_run_calls_log :
  log (final (run_calls example_calls example_mem))
  = [ {| level := LOG; message := "accept token 's3cr3t' for role 'alice'" |};
      {| level := LOG; message := "accept token 'alice' for role 'alice'" |} ].
Proof. vm_compute. reflexivity. Qed.

Lemma validate_twice_example :
  ∃ tok b1 b2 m2 r2,
    cstring_at example_mem example_token = Some tok
    ∧ authn_id
        <$> result_at (validate_post example_mem "s3cr3t" "alice" 3 example_result)
              example_result_ptr
      = Some (Ptr b1 0)
    ∧ validate NULL example_role example_role example_result_ptr
        (validate_post example_mem "s3cr3t" "alice" 3 example_result)
      = Returned true m2
    ∧ result_at m2 example_result_ptr = Some r2
    ∧ authn_id r2 = Ptr b2 0 ∧ authorized r2 = true
    ∧ b1 ≠ b2
    ∧ cstring_at m2 (Ptr b1 0) = Some tok
    ∧ cstring_at m2 (Ptr b2 0) = Some "alice"
    ∧ size (heap m2) = size (heap example_mem) + 2.
Proof.
  assert (Hr : cstring_at
                 (validate_post example_mem "s3cr3t" "alice" 3 example_result)
                 example_role = Some "alice")
    by (vm_compute; reflexivity).
  exact (validate_twice example_state example_token example_role
           example_result_ptr example_mem true _ NULL example_role
           example_role "alice" "alice" example_validate Hr Hr).
Defined.

Lemma run_calls_log_example :
  ∃ m',
    run_calls example_calls example_mem = Returned tt m'
    ∧ log m' = [accept_record "s3cr3t" "alice"; accept_record "alice" "alice"]
    ∧ size (heap m') = size (heap example_mem) + 2
    ∧ (∀ p s, cstring_at example_mem p = Some s → cstring_at m' p = Some s).
Proof.
  assert (Hrecs : calls_records example_mem example_calls
                  = Some [accept_record "s3cr3t" "alice";
                          accept_record "alice" "alice"])
    by (vm_compute; reflexivity).
  exact (run_calls_log example_calls example_mem _ Hrecs).
Defined.

Lemma validate_result_ignores_role_example :
  true = true
  ∧ heap (validate_post example_mem "s3cr3t" "alice" 3 example_result)
    = heap (validate_post example_mem "s3cr3t" "s3cr3t" 3 example_result).
Proof.
  assert (H2 : validate NULL example_token example_token example_result_ptr
                 example_mem
               = Returned true
                   (validate_post example_mem "s3cr3t" "s3cr3t" 3 example_result))
    by (vm_compute; reflexivity).
  exact (validate_result_ignores_role example_state NULL example_token
           example_role example_token example_result_ptr example_mem
           _ _ _ _ example_validate H2).
Defined.

Lemma validate_fault_writes_nothing_example :
  (∀ b x, heap example_mem !! b = Some x →
     heap (final (validate example_state example_token example_role NULL
                    example_mem)) !! b = Some x)
  ∧ (∀ p, result_at (final (validate example_state example_token example_role
                              NULL example_mem)) p
          = result_at example_mem p).
Proof.
  assert (Hf : returns (validate example_state example_token example_role
                          NULL example_mem) = false)
    by (vm_compute; reflexivity).
  exact (validate_fault_writes_nothing example_state example_token
           example_role NULL example_mem Hf).
Defined.
